(** * CPP_Compiler fixture [input.cpp]: machine model and verification

    The translation unit declares two globals, the helpers [add] and
    [sub], and [main].  [int] is modelled as a 32-bit two's-complement
    integer carried by [Z] with the wrap-around written out; [main] is
    modelled as a transition system whose control points are the source
    lines of its statements. *)

From Stdlib Require Import ZArith Bool List Lia.
Import ListNotations.
Local Open Scope Z_scope.

(** ** The type [int] *)

Module Int32.

Definition width : Z := 32.
Definition modulus : Z := 2 ^ width.
Definition INT_MIN : Z := - 2 ^ (width - 1).
Definition INT_MAX : Z := 2 ^ (width - 1) - 1.

Definition InRange (z : Z) : Prop := INT_MIN <= z <= INT_MAX.

Definition in_range (z : Z) : bool := (INT_MIN <=? z) && (z <=? INT_MAX).

(** Reduction of a mathematical integer to its 32-bit signed
    representative. *)
Definition wrap (z : Z) : Z := (z - INT_MIN) mod modulus + INT_MIN.

(** What can go wrong in an arithmetic operator. *)
Inductive fault : Type :=
| DivideByZero     (* right operand of [/] or [%] is 0 *)
| QuotientOverflow (* INT_MIN / -1 is not representable *).

Inductive result (A : Type) : Type :=
| Ok (x : A)
| Err (f : fault).
Arguments Ok {A} x.
Arguments Err {A} f.

(** [x + y] and [x - y] on [int]. *)
Definition plus (x y : Z) : Z := wrap (x + y).
Definition minus (x y : Z) : Z := wrap (x - y).

(** [x % y] on [int]: the remainder of the division that truncates
    towards zero, guarded against the two operand pairs for which the
    division has no result. *)
Definition rem (x y : Z) : result Z :=
  if y =? 0 then Err DivideByZero
  else if (x =? INT_MIN) && (y =? -1) then Err QuotientOverflow
  else Ok (Z.rem x y).

(** [x < y] and [x > y] on [int]. *)
Definition lt (x y : Z) : bool := x <? y.
Definition gt (x y : Z) : bool := y <? x.

End Int32.

(** ** Global declarations (lines 2-3) *)

Record globals : Type := mkGlobals {
  globalVar : Z;     (* int globalVar = 42; *)
  globalFlag : bool  (* bool globalFlag = false; *)
}.

Definition initial_globals : globals :=
  {| globalVar := 42; globalFlag := false |}.

(** ** The helpers (lines 6-12) *)

(** [int add(int x, int y) { return x + y; }] *)
Definition add (x y : Z) : Z := Int32.plus x y.

(** [int sub(int x, int y) { return x - y; }] *)
Definition sub (x y : Z) : Z := Int32.minus x y.

(** ** [main] (lines 14-41) *)

(** The automatic variables of [main]. *)
Record locals : Type := mkLocals {
  a : Z;
  b : Z;
  flag : bool;
  c : Z;
  d : Z;
  e : Z
}.

Definition with_a (v : Z) (l : locals) : locals :=
  {| a := v; b := b l; flag := flag l; c := c l; d := d l; e := e l |}.
Definition with_b (v : Z) (l : locals) : locals :=
  {| a := a l; b := v; flag := flag l; c := c l; d := d l; e := e l |}.
Definition with_flag (v : bool) (l : locals) : locals :=
  {| a := a l; b := b l; flag := v; c := c l; d := d l; e := e l |}.
Definition with_c (v : Z) (l : locals) : locals :=
  {| a := a l; b := b l; flag := flag l; c := v; d := d l; e := e l |}.
Definition with_d (v : Z) (l : locals) : locals :=
  {| a := a l; b := b l; flag := flag l; c := c l; d := v; e := e l |}.
Definition with_e (v : Z) (l : locals) : locals :=
  {| a := a l; b := b l; flag := flag l; c := c l; d := d l; e := v |}.

(** Control points of [main], named after the source line of the
    statement about to execute. *)
Inductive label : Type :=
| L17  (* int a = 5; *)
| L18  (* int b = 10; *)
| L19  (* bool flag = true; *)
| L22  (* int c = add(a, b); *)
| L23  (* int d = sub(a,b); *)
| L24  (* int e = a % b; *)
| L27  (* if (flag && (c > 10)) *)
| L28  (* a = a + 1; *)
| L30  (* a = a - 1; *)
| L34  (* while (a < c) *)
| L35  (* a = a + 2; *)
| L39  (* return a; *).

Definition label_eqb (p q : label) : bool :=
  match p, q with
  | L17, L17 | L18, L18 | L19, L19 | L22, L22 | L23, L23 | L24, L24
  | L27, L27 | L28, L28 | L30, L30 | L34, L34 | L35, L35 | L39, L39 => true
  | _, _ => false
  end.

Record state : Type := mkState {
  pc : label;
  glob : globals;
  loc : locals
}.

(** Move to control point [p] with the locals [l]; the globals are
    carried along. *)
Definition jump (p : label) (l : locals) (s : state) : state :=
  {| pc := p; glob := glob s; loc := l |}.

Definition with_glob (g : globals) (s : state) : state :=
  {| pc := pc s; glob := g; loc := loc s |}.

Inductive outcome : Type :=
| Next (s : state)                (* execution continues in [s] *)
| Returned (v : Z) (g : globals)  (* [main] returned [v], leaving globals [g] *)
| Faulted (f : Int32.fault)       (* an operator had no result *).

(** The guard of the [while] statement, [a < c]. *)
Definition guard (s : state) : bool := Int32.lt (a (loc s)) (c (loc s)).

(** One statement of [main]. *)
Definition step (s : state) : outcome :=
  let l := loc s in
  match pc s with
  | L17 => Next (jump L18 (with_a 5 l) s)
  | L18 => Next (jump L19 (with_b 10 l) s)
  | L19 => Next (jump L22 (with_flag true l) s)
  | L22 => Next (jump L23 (with_c (add (a l) (b l)) l) s)
  | L23 => Next (jump L24 (with_d (sub (a l) (b l)) l) s)
  | L24 =>
      match Int32.rem (a l) (b l) with
      | Int32.Ok r => Next (jump L27 (with_e r l) s)
      | Int32.Err f => Faulted f
      end
  | L27 =>
      if flag l && Int32.gt (c l) 10
      then Next (jump L28 l s)
      else Next (jump L30 l s)
  | L28 => Next (jump L34 (with_a (Int32.plus (a l) 1) l) s)
  | L30 => Next (jump L34 (with_a (Int32.minus (a l) 1) l) s)
  | L34 =>
      if guard s
      then Next (jump L35 l s)
      else Next (jump L39 l s)
  | L35 => Next (jump L34 (with_a (Int32.plus (a l) 2) l) s)
  | L39 => Returned (a l) (glob s)
  end.

(** At most [fuel] statements from [s]. *)
Fixpoint exec (fuel : nat) (s : state) : outcome :=
  match fuel with
  | O => Next s
  | S n =>
      match step s with
      | Next s' => exec n s'
      | o => o
      end
  end.

(** The states visited by [exec fuel s], in order, [s] included. *)
Fixpoint trace (fuel : nat) (s : state) : list state :=
  s :: match fuel with
       | O => []
       | S n =>
           match step s with
           | Next s' => trace n s'
           | _ => []
           end
       end.

(** The visits a trace pays to control point [p]. *)
Definition visits (p : label) (tr : list state) : list state :=
  filter (fun s => label_eqb (pc s) p) tr.

Inductive reachable (s0 : state) : state -> Prop :=
| reach_start : reachable s0 s0
| reach_step s s' : reachable s0 s -> step s = Next s' -> reachable s0 s'.

(** A run is over when it has returned or faulted. *)
Definition completed (o : outcome) : bool :=
  match o with
  | Next _ => false
  | _ => true
  end.

(** Entry to [main]: the globals hold [g] and the automatic variables,
    not yet initialised, hold whatever [junk] the frame contains. *)
Definition entry (g : globals) (junk : locals) : state :=
  {| pc := L17; glob := g; loc := junk |}.

Definition main (fuel : nat) (g : globals) (junk : locals) : outcome :=
  exec fuel (entry g junk).

(** The value [main] hands to the environment on return. *)
Definition exit_status (o : outcome) : option Z :=
  match o with
  | Returned v _ => Some v
  | _ => None
  end.

(** Replace the globals an outcome carries. *)
Definition outcome_with_glob (g : globals) (o : outcome) : outcome :=
  match o with
  | Next s => Next (with_glob g s)
  | Returned v _ => Returned v g
  | Faulted f => Faulted f
  end.

(** The locals that are written once and then left alone, with the
    values they keep from line 27 on. *)
Definition settled (l : locals) : Prop :=
  b l = 10 /\ flag l = true /\ c l = 15 /\ d l = -5 /\ e l = 5.

(** What is known of the locals each time control reaches a point of
    [main]: the initialised prefix before line 27, and from the loop on
    the parity and the bounds of [a]. *)
Definition main_inv (s : state) : Prop :=
  let l := loc s in
  match pc s with
  | L17 => True
  | L18 => a l = 5
  | L19 => a l = 5 /\ b l = 10
  | L22 => a l = 5 /\ b l = 10 /\ flag l = true
  | L23 => a l = 5 /\ b l = 10 /\ flag l = true /\ c l = 15
  | L24 => a l = 5 /\ b l = 10 /\ flag l = true /\ c l = 15 /\ d l = -5
  | L27 => a l = 5 /\ settled l
  | L28 => a l = 5 /\ settled l
  | L30 => False
  | L34 => (Z.even (a l) = true /\ 6 <= a l <= 16) /\ settled l
  | L35 => (Z.even (a l) = true /\ 6 <= a l <= 14) /\ settled l
  | L39 => (Z.even (a l) = true /\ 15 <= a l <= 16) /\ settled l
  end.

(** The statement about to execute does not overflow: the mathematical
    result of its [+] or [-] is representable. *)
Definition no_overflow (s : state) : Prop :=
  let l := loc s in
  match pc s with
  | L22 => Int32.InRange (a l + b l)
  | L23 => Int32.InRange (a l - b l)
  | L28 => Int32.InRange (a l + 1)
  | L30 => Int32.InRange (a l - 1)
  | L35 => Int32.InRange (a l + 2)
  | _ => True
  end.

(** Control is in the [while] statement: at its guard or in its body. *)
Definition in_loop (s : state) : bool :=
  label_eqb (pc s) L34 || label_eqb (pc s) L35.

(** The successive values of [a] along a list of states. *)
Definition values_of_a (tr : list state) : list Z :=
  map (fun s => a (loc s)) tr.

(** Frames that agree on every local but [d] and [e]; states and
    outcomes that differ at most there. *)
Definition same_but_d_e (l l' : locals) : Prop :=
  a l = a l' /\ b l = b l' /\ flag l = flag l' /\ c l = c l'.

Definition state_same_but_d_e (s s' : state) : Prop :=
  pc s = pc s' /\ glob s = glob s' /\ same_but_d_e (loc s) (loc s').

Definition outcome_same_but_d_e (o o' : outcome) : Prop :=
  match o, o' with
  | Next s, Next s' => state_same_but_d_e s s'
  | Returned v g, Returned v' g' => v = v' /\ g = g'
  | Faulted f, Faulted f' => f = f'
  | _, _ => False
  end.

(** Control is past the declarations, at line 27 or later. *)
Definition past_declarations (s : state) : bool :=
  match pc s with
  | L27 | L28 | L30 | L34 | L35 | L39 => true
  | _ => false
  end.

(** Frames that agree on every local but [a]. *)
Definition same_but_a (l l' : locals) : Prop :=
  b l = b l' /\ flag l = flag l' /\ c l = c l' /\ d l = d l' /\ e l = e l'.

(** * Facts about [int] *)

Module Int32Facts.
Import Int32.

Lemma modulus_val : modulus = 4294967296.
Proof. reflexivity. Qed.

Lemma INT_MIN_val : INT_MIN = -2147483648.
Proof. reflexivity. Qed.

Lemma INT_MAX_val : INT_MAX = 2147483647.
Proof. reflexivity. Qed.

Ltac unfold_range :=
  unfold InRange in *; rewrite ?INT_MIN_val, ?INT_MAX_val in *.

Lemma in_range_spec z : in_range z = true <-> InRange z.
Proof.
  unfold in_range, InRange.
  rewrite andb_true_iff, !Z.leb_le. tauto.
Qed.

Lemma wrap_range z : InRange (wrap z).
Proof.
  unfold wrap. unfold_range. rewrite modulus_val.
  pose proof (Z.mod_pos_bound (z - -2147483648) 4294967296 eq_refl). lia.
Qed.

Lemma wrap_id z : InRange z -> wrap z = z.
Proof.
  unfold wrap. unfold_range. rewrite modulus_val. intros Hz.
  rewrite Z.mod_small by lia. lia.
Qed.

(** [wrap z] differs from [z] by a multiple of [2^32]. *)
Lemma wrap_shift z : exists k, wrap z = z - k * modulus.
Proof.
  exists ((z - INT_MIN) / modulus). unfold wrap.
  rewrite Z.mod_eq by (rewrite modulus_val; lia). lia.
Qed.

(** Integers that differ by a multiple of [2^32] have the same
    representative. *)
Lemma wrap_congr x y k : x = y + k * modulus -> wrap x = wrap y.
Proof.
  intros ->. unfold wrap. f_equal.
  replace (y + k * modulus - INT_MIN) with (y - INT_MIN + k * modulus) by lia.
  apply Z.mod_add. rewrite modulus_val; lia.
Qed.

Lemma wrap_plus_l x y : wrap (wrap x + y) = wrap (x + y).
Proof.
  destruct (wrap_shift x) as [k Hk].
  apply (wrap_congr _ _ (- k)). lia.
Qed.

Lemma wrap_minus_l x y : wrap (wrap x - y) = wrap (x - y).
Proof.
  destruct (wrap_shift x) as [k Hk].
  apply (wrap_congr _ _ (- k)). lia.
Qed.

Lemma wrap_minus_r x y : wrap (x - wrap y) = wrap (x - y).
Proof.
  destruct (wrap_shift y) as [k Hk].
  apply (wrap_congr _ _ k). lia.
Qed.

(** [%] is the remainder of the division that truncates towards zero:
    it completes the truncated quotient, is smaller than the divisor in
    absolute value and never has the sign opposite to the dividend's. *)
Lemma rem_truncating x y r :
  rem x y = Ok r ->
  r = Z.rem x y /\ x = y * Z.quot x y + r /\ Z.abs r < Z.abs y /\ 0 <= r * x.
Proof.
  unfold rem. destruct (Z.eqb_spec y 0) as [|Hy]; [discriminate|].
  destruct ((x =? INT_MIN) && (y =? -1)); [discriminate|].
  intros [= <-]. repeat split.
  - apply Z.quot_rem'.
  - now apply Z.rem_bound_abs.
  - now apply Z.rem_sign_mul.
Qed.

Lemma rem_div_by_zero x y : rem x y = Err DivideByZero <-> y = 0.
Proof.
  unfold rem. destruct (Z.eqb_spec y 0) as [|Hy]; [tauto|].
  destruct ((x =? INT_MIN) && (y =? -1)); split; intros H;
    try discriminate; contradiction.
Qed.

Lemma rem_in_range x y r : InRange x -> rem x y = Ok r -> InRange r.
Proof.
  intros Hx Hr. pose proof Hr as Hy. apply rem_truncating in Hr as (-> & _ & _ & Hs).
  assert (y <> 0) as Hy0.
  { intros ->. unfold rem in Hy. discriminate. }
  assert (Z.abs (Z.rem x y) <= Z.abs x) as Hle.
  { rewrite <- Z.rem_abs by assumption. apply Z.rem_le; lia. }
  unfold_range. nia.
Qed.

End Int32Facts.

(** * The helpers [add] and [sub] *)

Section Helpers.

Import Int32.

Lemma add_in_range x y : InRange (add x y).
Proof. apply Int32Facts.wrap_range. Qed.

Lemma sub_in_range x y : InRange (sub x y).
Proof. apply Int32Facts.wrap_range. Qed.

(** Without overflow the helpers are the mathematical sum and
    difference. *)
Lemma add_exact x y : InRange (x + y) -> add x y = x + y.
Proof. apply Int32Facts.wrap_id. Qed.

Lemma sub_exact x y : InRange (x - y) -> sub x y = x - y.
Proof. apply Int32Facts.wrap_id. Qed.

Lemma sub_add_cancel x y : InRange x -> sub (add x y) y = x.
Proof.
  intros Hx. unfold sub, add, minus, plus.
  rewrite Int32Facts.wrap_minus_l.
  replace (x + y - y) with x by lia.
  now apply Int32Facts.wrap_id.
Qed.

Lemma add_minus_sub_wrapped x y : minus (add x y) (sub x y) = wrap (2 * y).
Proof.
  unfold sub, add, minus, plus.
  rewrite Int32Facts.wrap_minus_l, Int32Facts.wrap_minus_r.
  f_equal. lia.
Qed.

Lemma add_minus_sub_exact_iff x y :
  InRange x ->
  (add x y - sub x y = 2 * y <-> InRange (x + y) /\ InRange (x - y)).
Proof.
  intros Hx. split.
  - intros Heq.
    pose proof (add_in_range x y) as Ha.
    pose proof (sub_in_range x y) as Hs.
    unfold add, sub, plus, minus in *.
    destruct (Int32Facts.wrap_shift (x + y)) as [k1 H1].
    destruct (Int32Facts.wrap_shift (x - y)) as [k2 H2].
    rewrite H1, H2 in *. rewrite Int32Facts.modulus_val in *.
    Int32Facts.unfold_range.
    assert (k1 = k2) as -> by lia.
    assert (k2 = 0) as -> by lia.
    lia.
  - intros [Ha Hs]. rewrite add_exact, sub_exact by assumption. lia.
Qed.

End Helpers.

(** * The transition system of [main] *)

Section Execution.

Lemma exec_S n s :
  exec (S n) s = match step s with Next s' => exec n s' | o => o end.
Proof. reflexivity. Qed.

(** Fuel splits: run [n] statements, then [m] more. *)
Lemma exec_plus n m s :
  exec (n + m) s = match exec n s with Next s' => exec m s' | o => o end.
Proof.
  revert s. induction n as [|n IH]; intros s; [reflexivity|].
  cbn [Nat.add]. rewrite !exec_S.
  destruct (step s) as [s'| |]; [apply IH | reflexivity | reflexivity].
Qed.

(** A run that is over stays as it is under more fuel. *)
Lemma exec_stable n m s :
  completed (exec n s) = true -> (n <= m)%nat -> exec m s = exec n s.
Proof.
  intros Hc Hle. replace m with (n + (m - n))%nat by lia.
  rewrite exec_plus. destruct (exec n s); [discriminate | reflexivity | reflexivity].
Qed.

(** Two runs from one state that are both over ended the same way. *)
Lemma exec_deterministic n m s :
  completed (exec n s) = true -> completed (exec m s) = true ->
  exec n s = exec m s.
Proof.
  intros Hn Hm. destruct (Nat.le_ge_cases n m) as [Hle|Hle].
  - symmetry. now apply exec_stable.
  - now apply exec_stable.
Qed.

Lemma exec_reachable n : forall s s', exec n s = Next s' -> reachable s s'.
Proof.
  induction n as [|n IH]; intros s s' He.
  - injection He as <-. constructor.
  - replace (S n) with (n + 1)%nat in He by lia. rewrite exec_plus in He.
    destruct (exec n s) as [s1| |] eqn:E1; try discriminate.
    apply reach_step with s1; [now apply IH|].
    cbn in He. destruct (step s1); congruence.
Qed.

Lemma reachable_exec s s' : reachable s s' -> exists n, exec n s = Next s'.
Proof.
  induction 1 as [|s1 s2 _ [n IH] Hstep].
  - now exists O.
  - exists (n + 1)%nat. rewrite exec_plus, IH. cbn. now rewrite Hstep.
Qed.

(** Every state a trace lists is reachable. *)
Lemma trace_reachable n : forall s s', In s' (trace n s) -> reachable s s'.
Proof.
  induction n as [|n IH]; intros s s' Hin.
  - destruct Hin as [<-|[]]. constructor.
  - cbn [trace] in Hin. destruct Hin as [<-|Hin]; [constructor|].
    destruct (step s) as [s1| |] eqn:E1; try contradiction.
    specialize (IH _ _ Hin).
    clear Hin. induction IH as [|s2 s3 _ IH2 Hs].
    + apply reach_step with s; [constructor | assumption].
    + apply reach_step with s2; assumption.
Qed.

(** *** Globals *)

(** No statement writes a global. *)
Lemma step_glob s s' : step s = Next s' -> glob s' = glob s.
Proof.
  unfold step. destruct (pc s);
    repeat match goal with
           | |- context [match ?x with _ => _ end] => destruct x
           end;
    intros [= <-]; reflexivity.
Qed.

Lemma step_returned_glob s v g : step s = Returned v g -> g = glob s.
Proof.
  unfold step. destruct (pc s);
    repeat match goal with
           | |- context [match ?x with _ => _ end] => destruct x
           end;
    intros [= ]; congruence.
Qed.

(** No statement reads a global: whatever the globals are replaced by,
    it does the same, and hands the replacement on. *)
Lemma step_with_glob g s :
  step (with_glob g s) = outcome_with_glob g (step s).
Proof.
  unfold step, guard. cbn [with_glob pc loc glob]. destruct (pc s);
    repeat match goal with
           | |- context [match ?x with _ => _ end] => destruct x
           end;
    reflexivity.
Qed.

Lemma exec_with_glob g n :
  forall s, exec n (with_glob g s) = outcome_with_glob g (exec n s).
Proof.
  induction n as [|n IH]; intros s; [reflexivity|].
  rewrite !exec_S, step_with_glob.
  destruct (step s) as [s'| |]; cbn [outcome_with_glob];
    [apply IH | reflexivity | reflexivity].
Qed.

Lemma reachable_glob s0 s : reachable s0 s -> glob s = glob s0.
Proof.
  induction 1 as [|s1 s2 _ IH Hstep]; [reflexivity|].
  apply step_glob in Hstep. congruence.
Qed.

End Execution.

(** * The invariant of [main] *)

Section Invariant.

Lemma even_below_15 x : Z.even x = true -> x < 15 -> x <= 14.
Proof. intros He Hlt. apply Z.even_spec in He as [k ->]. lia. Qed.

(** 16 is the least even number that is at least 15. *)
Lemma least_even_from_15 :
  Z.even 16 = true /\ 15 <= 16 /\
  forall m, Z.even m = true -> 15 <= m -> 16 <= m.
Proof.
  split; [reflexivity|]. split; [lia|].
  intros m He Hm. apply Z.even_spec in He as [k ->]. lia.
Qed.

Lemma even_15_16 x : Z.even x = true -> 15 <= x <= 16 -> x = 16.
Proof. intros He H. apply Z.even_spec in He as [k ->]. lia. Qed.

Lemma plus_small x k : -1000 <= x <= 1000 -> -1000 <= k <= 1000 ->
  Int32.plus x k = x + k.
Proof.
  intros Hx Hk. apply Int32Facts.wrap_id. Int32Facts.unfold_range. lia.
Qed.

Ltac split_inv :=
  repeat match goal with
         | H : _ /\ _ |- _ => destruct H
         | H : settled _ |- _ => unfold settled in H
         end.

Ltac close_inv :=
  cbn; unfold settled; cbn; repeat split; try reflexivity; try lia.

Lemma step_preserves_inv s s' :
  main_inv s -> step s = Next s' -> main_inv s'.
Proof.
  destruct s as [p g [xa xb xf xc xd xe]].
  unfold main_inv, step.
  destruct p; cbn [pc loc glob a b flag c d e]; intros Hinv Hstep;
    split_inv; cbn [a b flag c d e] in *; subst.
  - injection Hstep as <-. reflexivity.
  - injection Hstep as <-. close_inv.
  - injection Hstep as <-. close_inv.
  - injection Hstep as <-. close_inv.
  - injection Hstep as <-. close_inv.
  - cbn in Hstep. injection Hstep as <-. close_inv.
  - cbn in Hstep. injection Hstep as <-. close_inv.
  - injection Hstep as <-. close_inv.
  - contradiction.
  - unfold guard, Int32.lt in Hstep. cbn [loc a c] in Hstep.
    destruct (Z.ltb_spec xa 15) as [Hlt|Hge];
      injection Hstep as <-; cbn; unfold settled; cbn.
    + pose proof (even_below_15 xa). intuition lia.
    + intuition lia.
  - injection Hstep as <-. unfold jump, with_a, settled.
    cbn [pc loc glob a b flag c d e].
    rewrite plus_small by lia.
    rewrite Z.even_add. replace (Z.even xa) with true by auto.
    intuition lia.
  - discriminate.
Qed.

(** The invariant holds all along every run of [main] from its entry. *)
Lemma reachable_inv g junk s : reachable (entry g junk) s -> main_inv s.
Proof.
  induction 1 as [|s1 s2 _ IH Hstep].
  - exact I.
  - now apply step_preserves_inv with s1.
Qed.

(** Only the modulus can fault. *)
Lemma step_faulted_at s f : step s = Faulted f -> pc s = L24.
Proof.
  unfold step. destruct (pc s);
    repeat match goal with
           | |- context [match ?x with _ => _ end] => destruct x
           end;
    intros [= ]; reflexivity.
Qed.

Lemma inv_no_fault s f : main_inv s -> step s <> Faulted f.
Proof.
  intros Hinv Hstep. pose proof (step_faulted_at _ _ Hstep) as Hpc.
  unfold main_inv, step in *. rewrite Hpc in *.
  destruct Hinv as (Ha & Hb & _). rewrite Ha, Hb in Hstep.
  discriminate.
Qed.

(** No [+] or [-] that [main] executes overflows, so its run does not
    depend on what overflow does. *)
Lemma inv_no_overflow s : main_inv s -> no_overflow s.
Proof.
  destruct s as [p g [xa xb xf xc xd xe]].
  unfold main_inv, no_overflow.
  destruct p; cbn [pc loc a b flag c d e]; intros Hinv;
    try exact I; try contradiction;
    split_inv; subst; Int32Facts.unfold_range; lia.
Qed.

End Invariant.

(** * Runs of [main] *)

Section Runs.

Variable g : globals.
Variable junk : locals.

(** The states of the straight-line prefix, lines 17 to 28. *)
Lemma exec_to_L22 :
  exec 3 (entry g junk) =
  Next (mkState L22 g (mkLocals 5 10 true (c junk) (d junk) (e junk))).
Proof. reflexivity. Qed.

Lemma exec_to_L23 :
  exec 4 (entry g junk) =
  Next (mkState L23 g (mkLocals 5 10 true (add 5 10) (d junk) (e junk))).
Proof. reflexivity. Qed.

Lemma exec_to_L24 :
  exec 5 (entry g junk) =
  Next (mkState L24 g (mkLocals 5 10 true 15 (-5) (e junk))).
Proof. reflexivity. Qed.

Lemma exec_to_L27 :
  exec 6 (entry g junk) =
  Next (mkState L27 g (mkLocals 5 10 true 15 (-5) 5)).
Proof. reflexivity. Qed.

Lemma exec_to_L28 :
  exec 7 (entry g junk) =
  Next (mkState L28 g (mkLocals 5 10 true 15 (-5) 5)).
Proof. reflexivity. Qed.

(** First arrival at the loop. *)
Lemma exec_to_L34 :
  exec 8 (entry g junk) =
  Next (mkState L34 g (mkLocals 6 10 true 15 (-5) 5)).
Proof. reflexivity. Qed.

(** Arrival at the [return]. *)
Lemma exec_to_L39 :
  exec 19 (entry g junk) =
  Next (mkState L39 g (mkLocals 16 10 true 15 (-5) 5)).
Proof. reflexivity. Qed.

Lemma exec_20 : exec 20 (entry g junk) = Returned 16 g.
Proof. reflexivity. Qed.

(** [main] needs its twenty statements: no shorter run is over. *)
Lemma exec_below_20 n : (n < 20)%nat -> completed (exec n (entry g junk)) = false.
Proof.
  intros Hn.
  do 20 (destruct n as [|n]; [reflexivity|]). lia.
Qed.

Lemma exec_from_20 n : (20 <= n)%nat -> exec n (entry g junk) = Returned 16 g.
Proof.
  intros Hn. rewrite <- exec_20. now apply exec_stable.
Qed.

(** A run of [main] that is over has returned 16. *)
Lemma exec_completed n :
  completed (exec n (entry g junk)) = true ->
  exec n (entry g junk) = Returned 16 g.
Proof.
  intros Hc. apply exec_from_20.
  destruct (Nat.lt_ge_cases n 20) as [Hlt|Hge]; [|assumption].
  rewrite exec_below_20 in Hc by assumption. discriminate.
Qed.

Lemma exec_never_faults n f : exec n (entry g junk) <> Faulted f.
Proof.
  intros Hf.
  assert (completed (exec n (entry g junk)) = true) as Hc by now rewrite Hf.
  apply exec_completed in Hc. congruence.
Qed.

End Runs.

(** * Traces *)

Section Traces.

(** Once a run is over its trace is complete. *)
Lemma trace_stable n :
  forall s m, completed (exec (S n) s) = true -> (n <= m)%nat ->
              trace m s = trace n s.
Proof.
  induction n as [|n IH]; intros s m Hc Hle.
  - rewrite exec_S in Hc. destruct m as [|m]; [reflexivity|].
    cbn [trace]. destruct (step s); [discriminate | reflexivity | reflexivity].
  - destruct m as [|m]; [lia|].
    rewrite exec_S in Hc. cbn [trace].
    destruct (step s) as [s'| |]; [|reflexivity|reflexivity].
    f_equal. apply IH; [assumption | lia].
Qed.

End Traces.

(** * The loop at lines 34-36 in general *)

Section Loop.

(** From the guard with [a < c] the body runs once and control is back
    at the guard with [a + 2], provided [a + 2] is representable. *)
Lemma loop_iteration s :
  pc s = L34 -> a (loc s) < c (loc s) -> Int32.InRange (a (loc s) + 2) ->
  exec 2 s = Next (jump L34 (with_a (a (loc s) + 2) (loc s)) s).
Proof.
  intros Hpc Hlt Hr. cbn [exec]. unfold step at 1. rewrite Hpc.
  unfold guard, Int32.lt. destruct (Z.ltb_spec (a (loc s)) (c (loc s))); [|lia].
  unfold step, jump. cbn [pc loc glob].
  unfold Int32.plus. now rewrite Int32Facts.wrap_id.
Qed.

Lemma loop_exit s :
  pc s = L34 -> c (loc s) <= a (loc s) ->
  exec 1 s = Next (jump L39 (loc s) s).
Proof.
  intros Hpc Hge. cbn [exec]. unfold step. rewrite Hpc.
  unfold guard, Int32.lt. destruct (Z.ltb_spec (a (loc s)) (c (loc s))); [lia|].
  reflexivity.
Qed.

(** The loop converges: when [c] leaves room for one more step of 2,
    [n] iterations take [a] from below [c] to the first [a + 2 * n] that
    is not, and control leaves for line 39 after [2 * n + 1]
    statements. *)
Lemma loop_converges (n : nat) :
  forall s,
    pc s = L34 ->
    Int32.InRange (a (loc s)) ->
    c (loc s) <= Int32.INT_MAX - 1 ->
    ((0 < n)%nat -> a (loc s) + 2 * (Z.of_nat n - 1) < c (loc s)) ->
    c (loc s) <= a (loc s) + 2 * Z.of_nat n ->
    exists s',
      exec (2 * n + 1) s = Next s' /\ pc s' = L39 /\
      a (loc s') = a (loc s) + 2 * Z.of_nat n /\
      c (loc s') = c (loc s) /\ glob s' = glob s.
Proof.
  induction n as [|n IH]; intros s Hpc Hr Hc Hlo Hhi.
  - exists (jump L39 (loc s) s). split.
    + apply loop_exit; [assumption | lia].
    + cbn. repeat split; lia.
  - assert (a (loc s) < c (loc s)) as Hlt by lia.
    assert (Int32.InRange (a (loc s) + 2)) as Hr2.
    { revert Hr Hc. Int32Facts.unfold_range. lia. }
    set (s2 := jump L34 (with_a (a (loc s) + 2) (loc s)) s).
    assert (exists s',
               exec (2 * n + 1) s2 = Next s' /\ pc s' = L39 /\
               a (loc s') = a (loc s2) + 2 * Z.of_nat n /\
               c (loc s') = c (loc s2) /\ glob s' = glob s2)
      as (s' & He & Hpc' & Ha' & Hc' & Hg').
    { apply IH; subst s2; cbn [jump pc loc glob with_a a c];
        [reflexivity | assumption | assumption | lia | lia]. }
    subst s2. cbn [jump pc loc glob with_a a c] in *.
    exists s'. split.
    + replace (2 * S n + 1)%nat with (2 + (2 * n + 1))%nat by lia.
      rewrite exec_plus, loop_iteration by assumption. exact He.
    + repeat split; try assumption; lia.
Qed.

End Loop.

(** * The properties of the specification *)

(** C1. Whatever the frame holds on entry, [main] started with the
    globals as initialised returns 16 once it is given the twenty
    statements it takes, and 16 is the exit status. *)
Theorem main_returns_16 (junk : locals) (fuel : nat) :
  (20 <= fuel)%nat ->
  main fuel initial_globals junk = Returned 16 initial_globals /\
  exit_status (main fuel initial_globals junk) = Some 16.
Proof.
  intros Hfuel. unfold main. rewrite exec_from_20 by assumption.
  split; reflexivity.
Qed.

Lemma main_returns_16_witness :
  (20 <= 20)%nat /\
  main 20 initial_globals (mkLocals (-7) 0 false 99 3 1)
  = Returned 16 initial_globals /\
  exit_status (main 20 initial_globals (mkLocals (-7) 0 false 99 3 1))
  = Some 16.
Proof.
  split; [lia|].
  apply (main_returns_16 (mkLocals (-7) 0 false 99 3 1) 20). lia.
Defined.

(** C2. The [while] loop entered with [a = 6] and [c = 15] leaves for
    line 39 after eleven statements with [a = 16]; until then control
    stays in the loop; over the whole run the body is entered exactly 5
    times, the guard sees [a] = 6, 8, 10, 12, 14, 16 in this order, and
    it holds at the first five and fails at 16. *)
Theorem loop_from_6_runs_5_times (s : state) (fuel : nat) :
  pc s = L34 -> a (loc s) = 6 -> c (loc s) = 15 -> (11 <= fuel)%nat ->
  (exists s', exec 11 s = Next s' /\ pc s' = L39 /\ a (loc s') = 16) /\
  forallb in_loop (trace 10 s) = true /\
  length (visits L35 (trace fuel s)) = 5%nat /\
  values_of_a (visits L34 (trace fuel s)) = [6; 8; 10; 12; 14; 16] /\
  map guard (visits L34 (trace fuel s))
  = [true; true; true; true; true; false].
Proof.
  intros Hpc Ha Hc Hfuel.
  split.
  { destruct (loop_converges 5 s) as (s' & He & Hpc' & Ha' & _);
      try assumption.
    - rewrite Ha. Int32Facts.unfold_range. lia.
    - rewrite Hc, Int32Facts.INT_MAX_val. lia.
    - intros _. rewrite Ha, Hc. lia.
    - rewrite Ha, Hc. lia.
    - exists s'. rewrite Ha in Ha'. auto. }
  destruct s as [p g [xa xb xf xc xd xe]].
  cbn [pc loc a c] in Hpc, Ha, Hc. subst p xa xc.
  split; [reflexivity|].
  rewrite (trace_stable 11 _ fuel) by (reflexivity || assumption).
  repeat split.
Qed.

Lemma loop_from_6_runs_5_times_witness :
  let s := mkState L34 initial_globals (mkLocals 6 10 true 15 (-5) 5) in
  (pc s = L34 /\ a (loc s) = 6 /\ c (loc s) = 15 /\ (11 <= 12)%nat) /\
  ((exists s', exec 11 s = Next s' /\ pc s' = L39 /\ a (loc s') = 16) /\
   forallb in_loop (trace 10 s) = true /\
   length (visits L35 (trace 12 s)) = 5%nat /\
   values_of_a (visits L34 (trace 12 s)) = [6; 8; 10; 12; 14; 16] /\
   map guard (visits L34 (trace 12 s))
   = [true; true; true; true; true; false]).
Proof.
  intros s. split.
  - repeat split; lia.
  - apply (loop_from_6_runs_5_times s 12); try reflexivity. lia.
Defined.

(** C3. At the conditional [flag] is true and [c] is 15, which is
    greater than 10: both operands of [&&] are true, control goes to the
    true-branch at line 28 and arrives after the conditional with
    [a = 6]; the else-branch at line 30 is never reached. *)
Theorem conditional_takes_true_branch (g : globals) (junk : locals) :
  exec 6 (entry g junk) = Next (mkState L27 g (mkLocals 5 10 true 15 (-5) 5)) /\
  flag (mkLocals 5 10 true 15 (-5) 5) = true /\
  Int32.gt (c (mkLocals 5 10 true 15 (-5) 5)) 10 = true /\
  step (mkState L27 g (mkLocals 5 10 true 15 (-5) 5))
  = Next (mkState L28 g (mkLocals 5 10 true 15 (-5) 5)) /\
  step (mkState L28 g (mkLocals 5 10 true 15 (-5) 5))
  = Next (mkState L34 g (mkLocals 6 10 true 15 (-5) 5)) /\
  (forall s, reachable (entry g junk) s -> pc s <> L30).
Proof.
  split; [apply exec_to_L27|].
  repeat (split; [reflexivity|]).
  intros s Hreach Hpc. apply reachable_inv in Hreach.
  unfold main_inv in Hreach. now rewrite Hpc in Hreach.
Qed.

Lemma conditional_takes_true_branch_witness :
  reachable (entry initial_globals (mkLocals (-7) 0 false 99 3 1))
            (mkState L28 initial_globals (mkLocals 5 10 true 15 (-5) 5)) /\
  pc (mkState L28 initial_globals (mkLocals 5 10 true 15 (-5) 5)) <> L30.
Proof.
  assert (reachable (entry initial_globals (mkLocals (-7) 0 false 99 3 1))
            (mkState L28 initial_globals (mkLocals 5 10 true 15 (-5) 5)))
    as Hreach by (apply (exec_reachable 7); reflexivity).
  split; [exact Hreach|].
  exact (proj2 (proj2 (proj2 (proj2 (proj2
    (conditional_takes_true_branch initial_globals
       (mkLocals (-7) 0 false 99 3 1)))))) _ Hreach).
Defined.

(** C4. With [a = 5] and [b = 10] initialised, line 22 sets [c] to
    [add a b], which is 15, and line 23 sets [d] to [sub a b], which is
    -5. *)
Theorem main_computes_c_and_d (g : globals) (junk : locals) :
  exec 3 (entry g junk)
  = Next (mkState L22 g (mkLocals 5 10 true (c junk) (d junk) (e junk))) /\
  exec 4 (entry g junk)
  = Next (mkState L23 g (mkLocals 5 10 true (add 5 10) (d junk) (e junk))) /\
  exec 5 (entry g junk)
  = Next (mkState L24 g (mkLocals 5 10 true (add 5 10) (sub 5 10) (e junk))) /\
  add 5 10 = 15 /\ sub 5 10 = -5.
Proof. repeat split. Qed.

(** C5. Line 24 sets [e] to [a % b] with [a = 5] and [b = 10]: the
    remainder of the truncating division, here 5 with quotient 0 and the
    sign of the dividend. *)
Theorem main_computes_e (g : globals) (junk : locals) :
  exec 5 (entry g junk)
  = Next (mkState L24 g (mkLocals 5 10 true 15 (-5) (e junk))) /\
  step (mkState L24 g (mkLocals 5 10 true 15 (-5) (e junk)))
  = Next (mkState L27 g (mkLocals 5 10 true 15 (-5) 5)) /\
  Int32.rem 5 10 = Int32.Ok 5 /\
  Z.quot 5 10 = 0 /\ 5 = 10 * Z.quot 5 10 + 5 /\
  Z.sgn (Z.rem 5 10) = Z.sgn 5 /\
  (forall x y r, Int32.rem x y = Int32.Ok r ->
     r = Z.rem x y /\ x = y * Z.quot x y + r /\
     Z.abs r < Z.abs y /\ 0 <= r * x).
Proof.
  repeat (split; [reflexivity|]). apply Int32Facts.rem_truncating.
Qed.

Lemma main_computes_e_witness :
  Int32.rem (-5) 10 = Int32.Ok (-5) /\
  (-5 = Z.rem (-5) 10 /\ -5 = 10 * Z.quot (-5) 10 + -5 /\
   Z.abs (-5) < Z.abs 10 /\ 0 <= -5 * -5).
Proof.
  split; [reflexivity|].
  apply (proj2 (proj2 (proj2 (proj2 (proj2 (proj2
    (main_computes_e initial_globals (mkLocals (-7) 0 false 99 3 1))))))) (-5) 10 (-5)).
  reflexivity.
Defined.

(** C6, as the code has it. For all in-range [x] and [y], [add] and
    [sub] return an in-range value (32-bit two's-complement wrap-around),
    [sub (add x y) y = x] holds, and [add x y - sub x y = 2 * y] holds
    modulo [2^32] (the outer subtraction and the doubling done on [int]
    as well); it holds over the integers exactly when neither [x + y]
    nor [x - y] overflows. *)
Theorem add_sub_laws (x y : Z) :
  Int32.InRange x -> Int32.InRange y ->
  Int32.InRange (add x y) /\ Int32.InRange (sub x y) /\
  sub (add x y) y = x /\
  Int32.minus (add x y) (sub x y) = Int32.wrap (2 * y) /\
  (add x y - sub x y = 2 * y <->
   Int32.InRange (x + y) /\ Int32.InRange (x - y)).
Proof.
  intros Hx Hy.
  split; [apply add_in_range|].
  split; [apply sub_in_range|].
  split; [now apply sub_add_cancel|].
  split; [apply add_minus_sub_wrapped|].
  now apply add_minus_sub_exact_iff.
Qed.

Lemma add_sub_laws_witness :
  Int32.InRange 2147483647 /\ Int32.InRange 1 /\
  (Int32.InRange (add 2147483647 1) /\ Int32.InRange (sub 2147483647 1) /\
   sub (add 2147483647 1) 1 = 2147483647 /\
   Int32.minus (add 2147483647 1) (sub 2147483647 1) = Int32.wrap (2 * 1) /\
   (add 2147483647 1 - sub 2147483647 1 = 2 * 1 <->
    Int32.InRange (2147483647 + 1) /\ Int32.InRange (2147483647 - 1))).
Proof.
  assert (Int32.InRange 2147483647) as Hx by (Int32Facts.unfold_range; lia).
  assert (Int32.InRange 1) as Hy by (Int32Facts.unfold_range; lia).
  split; [exact Hx | split; [exact Hy | exact (add_sub_laws 2147483647 1 Hx Hy)]].
Defined.

(** C6, as the claim words it, fails: [INT_MAX] and [1] are in range,
    [add] wraps to [INT_MIN], and the integer difference of the two
    results is [2 - 2^32], not [2]. *)
Lemma add_minus_sub_overflows :
  Int32.InRange 2147483647 /\ Int32.InRange 1 /\
  add 2147483647 1 = -2147483648 /\
  sub 2147483647 1 = 2147483646 /\
  add 2147483647 1 - sub 2147483647 1 <> 2 * 1.
Proof.
  repeat split; try (Int32Facts.unfold_range; lia); vm_compute; discriminate.
Qed.

(** C7. In every state [main] reaches from its entry with the globals
    as initialised, they are as initialised: [globalVar] is 42 and
    [globalFlag] is false.  No statement writes them, so a run that
    returns hands them back unchanged; no statement reads them, so
    replacing them by any others changes neither the next statement nor
    the run. *)
Theorem globals_untouched (junk : locals) (s : state) :
  reachable (entry initial_globals junk) s ->
  glob s = initial_globals /\
  globalVar (glob s) = 42 /\ globalFlag (glob s) = false /\
  (forall v g, step s = Returned v g -> g = initial_globals) /\
  (forall g, step (with_glob g s) = outcome_with_glob g (step s)) /\
  (forall fuel g,
     main fuel g junk = outcome_with_glob g (main fuel initial_globals junk)).
Proof.
  intros Hreach. apply reachable_glob in Hreach. cbn [entry glob] in Hreach.
  split; [assumption|]. rewrite Hreach.
  split; [reflexivity|]. split; [reflexivity|].
  split.
  { intros v g Hret. apply step_returned_glob in Hret. congruence. }
  split; [intros g; apply step_with_glob|].
  intros fuel g. unfold main. rewrite <- exec_with_glob. reflexivity.
Qed.

Lemma globals_untouched_witness :
  let junk := mkLocals (-7) 0 false 99 3 1 in
  let s := mkState L35 initial_globals (mkLocals 12 10 true 15 (-5) 5) in
  reachable (entry initial_globals junk) s /\
  glob s = initial_globals /\
  globalVar (glob s) = 42 /\ globalFlag (glob s) = false.
Proof.
  intros junk s.
  assert (reachable (entry initial_globals junk) s) as Hreach
    by (apply (exec_reachable 15); reflexivity).
  split; [exact Hreach|].
  destruct (globals_untouched junk s Hreach) as (Hg & Hv & Hf & _).
  exact (conj Hg (conj Hv Hf)).
Defined.

(** C8. Any two runs of [main] that are over, whatever their fuel and
    whatever their frames held on entry, ended the same way: both
    returned 16 and left the globals as initialised. *)
Theorem main_deterministic (junk1 junk2 : locals) (n m : nat) :
  completed (main n initial_globals junk1) = true ->
  completed (main m initial_globals junk2) = true ->
  main n initial_globals junk1 = main m initial_globals junk2 /\
  main n initial_globals junk1 = Returned 16 initial_globals.
Proof.
  unfold main. intros Hn Hm.
  apply exec_completed in Hn. apply exec_completed in Hm.
  split; congruence.
Qed.

Lemma main_deterministic_witness :
  let junk1 := mkLocals (-7) 0 false 99 3 1 in
  let junk2 := mkLocals 0 0 true 0 0 0 in
  completed (main 20 initial_globals junk1) = true /\
  completed (main 33 initial_globals junk2) = true /\
  main 20 initial_globals junk1 = main 33 initial_globals junk2 /\
  main 20 initial_globals junk1 = Returned 16 initial_globals.
Proof.
  intros junk1 junk2.
  split; [reflexivity|]. split; [reflexivity|].
  apply (main_deterministic junk1 junk2 20 33); reflexivity.
Defined.

(** C9. In every state [main] reaches in the loop, at the guard or in
    the body, [a] is even and between 6 and 16, the first of them having
    [a = 6]; so where the loop is left [a] is even and at least 15,
    hence 16, the least such number. *)
Theorem loop_invariant_even_6_16 (junk : locals) (s t : state) :
  reachable (entry initial_globals junk) s -> in_loop s = true ->
  reachable (entry initial_globals junk) t -> pc t = L39 ->
  exec 8 (entry initial_globals junk)
  = Next (mkState L34 initial_globals (mkLocals 6 10 true 15 (-5) 5)) /\
  (Z.even (a (loc s)) = true /\ 6 <= a (loc s) <= 16) /\
  a (loc t) = 16 /\
  (Z.even 16 = true /\ 15 <= 16 /\
   forall m, Z.even m = true -> 15 <= m -> 16 <= m).
Proof.
  intros Hs Hloop Ht Hpc.
  apply reachable_inv in Hs. apply reachable_inv in Ht.
  unfold main_inv in Hs, Ht. rewrite Hpc in Ht.
  split; [apply exec_to_L34|].
  split.
  - unfold in_loop in Hloop.
    destruct (pc s); try discriminate; destruct Hs as [[He Hb] _];
      (split; [exact He | lia]).
  - split; [|exact least_even_from_15].
    destruct Ht as [[He Hb] _]. now apply even_15_16.
Qed.

Lemma loop_invariant_even_6_16_witness :
  let junk := mkLocals (-7) 0 false 99 3 1 in
  let s := mkState L35 initial_globals (mkLocals 12 10 true 15 (-5) 5) in
  let t := mkState L39 initial_globals (mkLocals 16 10 true 15 (-5) 5) in
  (reachable (entry initial_globals junk) s /\ in_loop s = true /\
   reachable (entry initial_globals junk) t /\ pc t = L39) /\
  (Z.even (a (loc s)) = true /\ 6 <= a (loc s) <= 16) /\
  a (loc t) = 16.
Proof.
  intros junk s t.
  assert (reachable (entry initial_globals junk) s) as Hs
    by (apply (exec_reachable 15); reflexivity).
  assert (reachable (entry initial_globals junk) t) as Ht
    by (apply (exec_reachable 19); reflexivity).
  split; [exact (conj Hs (conj eq_refl (conj Ht eq_refl)))|].
  destruct (loop_invariant_even_6_16 junk s t Hs eq_refl Ht eq_refl)
    as (_ & Hinv & Hexit & _).
  exact (conj Hinv Hexit).
Defined.

(** C10. Where [main] reaches the modulus at line 24 the divisor [b] is
    10, not 0, and the guarded [%] succeeds with 5.  The modulus is the
    only statement that can fault, and the guard reports a division by
    zero exactly on a zero divisor; no state [main] reaches faults, and no run of [main]
    does. *)
Theorem modulus_never_faults (g : globals) (junk : locals) (s : state) :
  reachable (entry g junk) s ->
  (pc s = L24 ->
   b (loc s) = 10 /\ b (loc s) <> 0 /\
   Int32.rem (a (loc s)) (b (loc s)) = Int32.Ok 5) /\
  (forall f, step s <> Faulted f) /\
  (forall fuel f, main fuel g junk <> Faulted f) /\
  (forall t f, step t = Faulted f -> pc t = L24) /\
  (forall x y, Int32.rem x y = Int32.Err Int32.DivideByZero <-> y = 0).
Proof.
  intros Hreach. apply reachable_inv in Hreach.
  split.
  { intros Hpc. unfold main_inv in Hreach. rewrite Hpc in Hreach.
    destruct Hreach as (Ha & Hb & _). rewrite Ha, Hb.
    repeat split. discriminate. }
  split; [intros f; now apply inv_no_fault|].
  split; [intros fuel f; apply exec_never_faults|].
  split; [exact step_faulted_at|].
  exact Int32Facts.rem_div_by_zero.
Qed.

Lemma modulus_never_faults_witness :
  let junk := mkLocals (-7) 0 false 99 3 1 in
  let s := mkState L24 initial_globals (mkLocals 5 10 true 15 (-5) 1) in
  (reachable (entry initial_globals junk) s /\ pc s = L24) /\
  (b (loc s) = 10 /\ b (loc s) <> 0 /\
   Int32.rem (a (loc s)) (b (loc s)) = Int32.Ok 5) /\
  (forall f, step s <> Faulted f).
Proof.
  intros junk s.
  assert (reachable (entry initial_globals junk) s) as Hreach
    by (apply (exec_reachable 5); reflexivity).
  split; [exact (conj Hreach eq_refl)|].
  destruct (modulus_never_faults initial_globals junk s Hreach)
    as (Hmod & Hstep & _).
  exact (conj (Hmod eq_refl) Hstep).
Defined.

(** * Further properties of the helpers *)

Section HelperAlgebra.

Import Int32.

Lemma wrap_plus_r x y : wrap (x + wrap y) = wrap (x + y).
Proof.
  rewrite (Z.add_comm x (wrap y)), Int32Facts.wrap_plus_l.
  f_equal. lia.
Qed.

(** The representative has the parity of the integer it stands for. *)
Lemma wrap_even z : Z.even (wrap z) = Z.even z.
Proof.
  destruct (Int32Facts.wrap_shift z) as [k ->].
  rewrite Int32Facts.modulus_val.
  replace (z - k * 4294967296) with (z + 2 * (- k * 2147483648)) by lia.
  rewrite Z.even_add, Z.even_mul. cbn. now destruct (Z.even z).
Qed.

(** Where [wrap] lands a sum or difference of two in-range integers. *)
Lemma wrap_one_turn z :
  2 * INT_MIN <= z <= 2 * INT_MAX + 1 ->
  wrap z = z - modulus * (if INT_MAX <? z then 1
                          else if z <? INT_MIN then -1 else 0).
Proof.
  rewrite Int32Facts.INT_MIN_val, Int32Facts.INT_MAX_val. intros Hz.
  destruct (Z.ltb_spec 2147483647 z) as [Hhi|Hhi].
  - replace (z - modulus * 1) with (z - 1 * modulus) by lia.
    rewrite <- (Int32Facts.wrap_id (z - 1 * modulus)).
    + apply (Int32Facts.wrap_congr _ _ 1). lia.
    + rewrite Int32Facts.modulus_val. Int32Facts.unfold_range. lia.
  - destruct (Z.ltb_spec z (-2147483648)) as [Hlo|Hlo].
    + replace (z - modulus * -1) with (z + 1 * modulus) by lia.
      rewrite <- (Int32Facts.wrap_id (z + 1 * modulus)).
      * apply (Int32Facts.wrap_congr _ _ (-1)). lia.
      * rewrite Int32Facts.modulus_val. Int32Facts.unfold_range. lia.
    + replace (z - modulus * 0) with z by lia.
      apply Int32Facts.wrap_id. Int32Facts.unfold_range. lia.
Qed.

End HelperAlgebra.

(** X1. [add] is commutative and associative on all operands,
    overflowing or not, and 0 is neutral for it on in-range values. *)
Theorem add_comm_assoc_neutral (x y z : Z) :
  Int32.InRange x ->
  add x y = add y x /\
  add (add x y) z = add x (add y z) /\
  add x 0 = x /\ add 0 x = x.
Proof.
  intros Hx. unfold add, Int32.plus.
  split; [f_equal; lia|].
  split.
  - rewrite Int32Facts.wrap_plus_l, wrap_plus_r. f_equal. lia.
  - rewrite Z.add_0_r, Z.add_0_l. split; now apply Int32Facts.wrap_id.
Qed.

Lemma add_comm_assoc_neutral_witness :
  Int32.InRange 2147483647 /\
  add 2147483647 1 = add 1 2147483647 /\
  add (add 2147483647 1) (-1) = add 2147483647 (add 1 (-1)) /\
  add 2147483647 0 = 2147483647 /\ add 0 2147483647 = 2147483647.
Proof.
  assert (Int32.InRange 2147483647) as Hx by (Int32Facts.unfold_range; lia).
  split; [exact Hx|].
  exact (add_comm_assoc_neutral 2147483647 1 (-1) Hx).
Defined.

(** X2. On in-range operands [add] returns the sum when it is
    representable, the sum less [2^32] when it exceeds [INT_MAX] and the
    sum plus [2^32] when it is below [INT_MIN]; it overflows exactly
    when the operands have one sign and the result the other. *)
Theorem add_overflow_behaviour (x y : Z) :
  Int32.InRange x -> Int32.InRange y ->
  add x y = x + y - Int32.modulus *
              (if Int32.INT_MAX <? x + y then 1
               else if x + y <? Int32.INT_MIN then -1 else 0) /\
  (add x y = x + y <-> Int32.InRange (x + y)) /\
  (~ Int32.InRange (x + y) <->
   (0 <= x /\ 0 <= y /\ add x y < 0) \/ (x < 0 /\ y < 0 /\ 0 <= add x y)).
Proof.
  intros Hx Hy.
  assert (add x y = x + y - Int32.modulus *
            (if Int32.INT_MAX <? x + y then 1
             else if x + y <? Int32.INT_MIN then -1 else 0)) as Hadd.
  { apply wrap_one_turn. revert Hx Hy. Int32Facts.unfold_range. lia. }
  split; [exact Hadd|].
  revert Hadd Hx Hy.
  rewrite Int32Facts.modulus_val. Int32Facts.unfold_range.
  destruct (Z.ltb_spec 2147483647 (x + y));
    destruct (Z.ltb_spec (x + y) (-2147483648)); intros Hadd Hx Hy; lia.
Qed.

Lemma add_overflow_behaviour_witness :
  (Int32.InRange (-2147483648) /\ Int32.InRange (-1)) /\
  add (-2147483648) (-1) = 2147483647 /\
  ~ Int32.InRange (-2147483648 + -1).
Proof.
  assert (Int32.InRange (-2147483648)) as Hx by (Int32Facts.unfold_range; lia).
  assert (Int32.InRange (-1)) as Hy by (Int32Facts.unfold_range; lia).
  split; [exact (conj Hx Hy)|].
  destruct (add_overflow_behaviour (-2147483648) (-1) Hx Hy) as (Hadd & _ & Hsign).
  split; [exact Hadd|].
  apply Hsign. right. rewrite Hadd. cbn. lia.
Defined.

(** X3. On in-range operands [sub] returns the difference when it is
    representable, the difference less [2^32] when it exceeds [INT_MAX]
    and the difference plus [2^32] when it is below [INT_MIN]; it
    overflows exactly when the operands have opposite signs and the
    result has the sign of the subtrahend. *)
Theorem sub_overflow_behaviour (x y : Z) :
  Int32.InRange x -> Int32.InRange y ->
  sub x y = x - y - Int32.modulus *
              (if Int32.INT_MAX <? x - y then 1
               else if x - y <? Int32.INT_MIN then -1 else 0) /\
  (sub x y = x - y <-> Int32.InRange (x - y)) /\
  (~ Int32.InRange (x - y) <->
   (0 <= x /\ y < 0 /\ sub x y < 0) \/ (x < 0 /\ 0 <= y /\ 0 <= sub x y)).
Proof.
  intros Hx Hy.
  assert (sub x y = x - y - Int32.modulus *
            (if Int32.INT_MAX <? x - y then 1
             else if x - y <? Int32.INT_MIN then -1 else 0)) as Hsub.
  { apply wrap_one_turn. revert Hx Hy. Int32Facts.unfold_range. lia. }
  split; [exact Hsub|].
  revert Hsub Hx Hy.
  rewrite Int32Facts.modulus_val. Int32Facts.unfold_range.
  destruct (Z.ltb_spec 2147483647 (x - y));
    destruct (Z.ltb_spec (x - y) (-2147483648)); intros Hsub Hx Hy; lia.
Qed.

Lemma sub_overflow_behaviour_witness :
  (Int32.InRange (-2147483648) /\ Int32.InRange 1) /\
  sub (-2147483648) 1 = 2147483647 /\
  ~ Int32.InRange (-2147483648 - 1).
Proof.
  assert (Int32.InRange (-2147483648)) as Hx by (Int32Facts.unfold_range; lia).
  assert (Int32.InRange 1) as Hy by (Int32Facts.unfold_range; lia).
  split; [exact (conj Hx Hy)|].
  destruct (sub_overflow_behaviour (-2147483648) 1 Hx Hy) as (Hsub & _ & Hsign).
  split; [exact Hsub|].
  apply Hsign. right. rewrite Hsub. cbn. lia.
Defined.

(** X4. On in-range operands each helper undoes the other in either
    order, overflow or not: adding back what [sub] took away returns
    [x], and [sub] recovers either operand of a sum or a difference. *)
Theorem add_sub_round_trips (x y : Z) :
  Int32.InRange x -> Int32.InRange y ->
  add (sub x y) y = x /\
  sub (add x y) x = y /\
  sub x (sub x y) = y.
Proof.
  intros Hx Hy. unfold add, sub, Int32.plus, Int32.minus.
  rewrite Int32Facts.wrap_plus_l, Int32Facts.wrap_minus_l,
    Int32Facts.wrap_minus_r.
  replace (x - y + y) with x by lia.
  replace (x + y - x) with y by lia.
  replace (x - (x - y)) with y by lia.
  rewrite !Int32Facts.wrap_id by assumption. auto.
Qed.

Lemma add_sub_round_trips_witness :
  (Int32.InRange (-2147483648) /\ Int32.InRange 1) /\
  add (sub (-2147483648) 1) 1 = -2147483648 /\
  sub (add (-2147483648) 1) (-2147483648) = 1 /\
  sub (-2147483648) (sub (-2147483648) 1) = 1.
Proof.
  assert (Int32.InRange (-2147483648)) as Hx by (Int32Facts.unfold_range; lia).
  assert (Int32.InRange 1) as Hy by (Int32Facts.unfold_range; lia).
  split; [exact (conj Hx Hy)|].
  exact (add_sub_round_trips (-2147483648) 1 Hx Hy).
Defined.

(** X5. How the helpers compose, on all operands: a common addend
    cancels under [sub], differences telescope under [add], and [sub] of
    a value from itself is 0. *)
Theorem add_sub_compose (x y z : Z) :
  sub (add x z) (add y z) = sub x y /\
  add (sub x y) (sub y z) = sub x z /\
  sub x x = 0.
Proof.
  unfold add, sub, Int32.plus, Int32.minus.
  rewrite Int32Facts.wrap_minus_l, Int32Facts.wrap_minus_r,
    Int32Facts.wrap_plus_l, wrap_plus_r.
  split; [f_equal; lia|]. split; [f_equal; lia|].
  now rewrite Z.sub_diag.
Qed.

(** * Further properties of [main]'s statements *)

Section LoopInGeneral.

(** The states one iteration of the loop goes through. *)
Lemma trace_iteration k s :
  pc s = L34 -> a (loc s) < c (loc s) -> Int32.InRange (a (loc s) + 2) ->
  trace (2 + k) s =
  s :: jump L35 (loc s) s
    :: trace k (jump L34 (with_a (a (loc s) + 2) (loc s)) s).
Proof.
  intros Hpc Hlt Hr. cbn [Nat.add trace]. unfold step at 1. rewrite Hpc.
  unfold guard, Int32.lt. destruct (Z.ltb_spec (a (loc s)) (c (loc s))); [|lia].
  f_equal. unfold step at 1. cbn [jump pc loc glob].
  unfold Int32.plus. now rewrite Int32Facts.wrap_id.
Qed.

Lemma trace_exit s :
  pc s = L34 -> c (loc s) <= a (loc s) ->
  trace 1 s = [s; jump L39 (loc s) s].
Proof.
  intros Hpc Hge. cbn [trace]. unfold step. rewrite Hpc.
  unfold guard, Int32.lt. destruct (Z.ltb_spec (a (loc s)) (c (loc s))); [lia|].
  reflexivity.
Qed.

Lemma visits_cons p s tr :
  visits p (s :: tr) =
  if label_eqb (pc s) p then s :: visits p tr else visits p tr.
Proof. reflexivity. Qed.

(** With [c = INT_MAX] and [a] even the guard always holds and the body
    keeps [a] even: control never leaves the loop. *)
Lemma step_stays_in_loop s :
  in_loop s = true -> c (loc s) = Int32.INT_MAX ->
  Int32.InRange (a (loc s)) -> Z.even (a (loc s)) = true ->
  exists s', step s = Next s' /\ in_loop s' = true /\
             c (loc s') = Int32.INT_MAX /\
             Int32.InRange (a (loc s')) /\ Z.even (a (loc s')) = true.
Proof.
  intros Hloop Hc Hr He. unfold in_loop in Hloop. unfold step, guard.
  destruct (pc s); try discriminate.
  - exists (jump L35 (loc s) s). rewrite Hc. unfold Int32.lt.
    destruct (Z.ltb_spec (a (loc s)) Int32.INT_MAX) as [Hlt|Hge].
    + cbn [jump loc pc]. auto.
    + assert (a (loc s) = Int32.INT_MAX) as Heq
        by (revert Hr Hge; Int32Facts.unfold_range; lia).
      rewrite Heq in He. discriminate.
  - eexists. split; [reflexivity|]. cbn [jump with_a loc pc a c].
    unfold Int32.plus. rewrite wrap_even, Z.even_add, He.
    repeat split; try assumption; apply Int32Facts.wrap_range.
Qed.

End LoopInGeneral.

(** X6. The [while] loop in general.  Entered with an in-range [a],
    it runs its body [n] times, where [n] is the least count with
    [c <= a + 2 * n], and leaves for line 39 after [2 * n + 1]
    statements with [a + 2 * n] in [a] and every other local and the
    globals as they were, provided [a + 2 * n] is representable.  With
    [n = 0]: when [c <= a] already, the body is not executed at all. *)
Theorem while_loop_exits (n : nat) (s : state) :
  pc s = L34 ->
  Int32.InRange (a (loc s)) ->
  a (loc s) + 2 * Z.of_nat n <= Int32.INT_MAX ->
  ((0 < n)%nat -> a (loc s) + 2 * (Z.of_nat n - 1) < c (loc s)) ->
  c (loc s) <= a (loc s) + 2 * Z.of_nat n ->
  exists s',
    exec (2 * n + 1) s = Next s' /\ pc s' = L39 /\
    a (loc s') = a (loc s) + 2 * Z.of_nat n /\
    same_but_a (loc s') (loc s) /\ glob s' = glob s /\
    length (visits L35 (trace (2 * n + 1) s)) = n.
Proof.
  revert s. induction n as [|n IH]; intros s Hpc Hr Hmax Hlo Hhi.
  - exists (jump L39 (loc s) s).
    split; [apply loop_exit; [assumption | lia]|].
    cbn [jump pc loc glob]. unfold same_but_a.
    split; [reflexivity|]. split; [lia|].
    split; [repeat split|]. split; [reflexivity|].
    cbn [Nat.mul Nat.add]. rewrite trace_exit by (assumption || lia).
    rewrite !visits_cons. cbn [jump pc]. rewrite Hpc. reflexivity.
  - assert (a (loc s) < c (loc s)) as Hlt by lia.
    assert (Int32.InRange (a (loc s) + 2)) as Hr2.
    { revert Hr Hmax. Int32Facts.unfold_range. lia. }
    set (s2 := jump L34 (with_a (a (loc s) + 2) (loc s)) s).
    destruct (IH s2) as (s' & He & Hpc' & Ha' & Hsame & Hg' & Hlen);
      subst s2; cbn [jump pc loc glob with_a a c];
      [reflexivity | assumption | lia | lia | lia |].
    cbn [jump pc loc glob with_a a b flag c d e] in *.
    exists s'.
    replace (2 * S n + 1)%nat with (2 + (2 * n + 1))%nat by lia.
    split; [rewrite exec_plus, loop_iteration by assumption; exact He|].
    split; [assumption|]. split; [lia|].
    split; [exact Hsame|]. split; [assumption|].
    rewrite trace_iteration by assumption.
    rewrite !visits_cons. cbn [jump pc]. rewrite Hpc. cbn [label_eqb length].
    now rewrite Hlen.
Qed.

Lemma while_loop_exits_witness :
  let s := mkState L34 initial_globals
             (mkLocals 2147483641 0 false 2147483647 7 9) in
  (pc s = L34 /\ Int32.InRange (a (loc s)) /\
   a (loc s) + 2 * Z.of_nat 3 <= Int32.INT_MAX /\
   a (loc s) + 2 * (Z.of_nat 3 - 1) < c (loc s) /\
   c (loc s) <= a (loc s) + 2 * Z.of_nat 3) /\
  exists s',
    exec 7 s = Next s' /\ pc s' = L39 /\
    a (loc s') = a (loc s) + 2 * Z.of_nat 3 /\
    same_but_a (loc s') (loc s) /\ glob s' = glob s /\
    length (visits L35 (trace 7 s)) = 3%nat.
Proof.
  intros s.
  assert (Int32.InRange (a (loc s))) as Hr
    by (Int32Facts.unfold_range; cbn; lia).
  assert (a (loc s) + 2 * Z.of_nat 3 <= Int32.INT_MAX) as Hmax
    by (rewrite Int32Facts.INT_MAX_val; cbn; lia).
  assert (a (loc s) + 2 * (Z.of_nat 3 - 1) < c (loc s)) as Hlo by (cbn; lia).
  assert (c (loc s) <= a (loc s) + 2 * Z.of_nat 3) as Hhi by (cbn; lia).
  split; [exact (conj eq_refl (conj Hr (conj Hmax (conj Hlo Hhi))))|].
  exact (while_loop_exits 3 s eq_refl Hr Hmax (fun _ => Hlo) Hhi).
Defined.

(** X7. The one entry on which the loop does not exit: with
    [c = INT_MAX] and an even in-range [a], [a + 2] wraps from
    [INT_MAX - 1] to [INT_MIN] and stays below [c], so after any number
    of statements control is still in the loop. *)
Theorem while_loop_never_exits (s : state) (fuel : nat) :
  in_loop s = true -> c (loc s) = Int32.INT_MAX ->
  Int32.InRange (a (loc s)) -> Z.even (a (loc s)) = true ->
  exists s', exec fuel s = Next s' /\ in_loop s' = true.
Proof.
  revert s. induction fuel as [|fuel IH]; intros s Hloop Hc Hr He.
  - now exists s.
  - destruct (step_stays_in_loop s Hloop Hc Hr He)
      as (s1 & Hstep & Hloop1 & Hc1 & Hr1 & He1).
    destruct (IH s1 Hloop1 Hc1 Hr1 He1) as (s' & Hexec & Hloop').
    exists s'. rewrite exec_S, Hstep. auto.
Qed.

Lemma while_loop_never_exits_witness :
  let s := mkState L34 initial_globals
             (mkLocals 2147483646 0 false 2147483647 7 9) in
  (in_loop s = true /\ c (loc s) = Int32.INT_MAX /\
   Int32.InRange (a (loc s)) /\ Z.even (a (loc s)) = true) /\
  exec 2 s = Next (mkState L34 initial_globals
                     (mkLocals (-2147483648) 0 false 2147483647 7 9)) /\
  exists s', exec 1000 s = Next s' /\ in_loop s' = true.
Proof.
  intros s.
  assert (Int32.InRange (a (loc s))) as Hr
    by (Int32Facts.unfold_range; cbn; lia).
  split; [exact (conj eq_refl (conj eq_refl (conj Hr eq_refl)))|].
  split; [reflexivity|].
  exact (while_loop_never_exits s 1000 eq_refl eq_refl Hr eq_refl).
Defined.

Section Frames.

Lemma step_past_declarations s s' :
  past_declarations s = true -> step s = Next s' ->
  past_declarations s' = true /\ same_but_a (loc s') (loc s).
Proof.
  unfold past_declarations, step, same_but_a.
  destruct (pc s); try discriminate; intros _;
    repeat match goal with
           | |- context [if ?x then _ else _] => destruct x
           end;
    intros [= <-]; cbn; auto 10.
Qed.

Lemma step_same_but_d_e s t :
  state_same_but_d_e s t -> outcome_same_but_d_e (step s) (step t).
Proof.
  intros (Hpc & Hg & Ha & Hb & Hf & Hc).
  unfold step, guard. rewrite <- Hpc, <- Hg, <- Ha, <- Hb, <- Hf, <- Hc.
  destruct (pc s);
    repeat match goal with
           | |- context [match ?x with _ => _ end] => destruct x
           end;
    cbn; unfold state_same_but_d_e, same_but_a, same_but_d_e; cbn; auto 10.
Qed.

End Frames.

(** X8. From line 27 on only [a] is ever assigned: starting anywhere
    at or after line 27, every state reached is again at or after line
    27 and has the same [b], [flag], [c], [d], [e] and the same
    globals. *)
Theorem only_a_assigned_past_declarations (s s' : state) :
  past_declarations s = true -> reachable s s' ->
  past_declarations s' = true /\
  same_but_a (loc s') (loc s) /\ glob s' = glob s.
Proof.
  intros Hpast Hreach.
  induction Hreach as [|s1 s2 _ (Hp1 & Hsame1 & Hg1) Hstep].
  - unfold same_but_a. auto 10.
  - destruct (step_past_declarations _ _ Hp1 Hstep) as (Hp2 & Hsame2).
    apply step_glob in Hstep.
    split; [assumption|]. split; [|congruence].
    unfold same_but_a in *.
    destruct Hsame1 as (? & ? & ? & ? & ?), Hsame2 as (? & ? & ? & ? & ?).
    repeat split; congruence.
Qed.

Lemma only_a_assigned_past_declarations_witness :
  let s := mkState L27 initial_globals (mkLocals 3 4 false 9 1 2) in
  let s' := mkState L39 initial_globals (mkLocals 10 4 false 9 1 2) in
  (past_declarations s = true /\ reachable s s') /\
  past_declarations s' = true /\
  same_but_a (loc s') (loc s) /\ glob s' = glob s.
Proof.
  intros s s'.
  assert (reachable s s') as Hreach by (apply (exec_reachable 11); reflexivity).
  split; [exact (conj eq_refl Hreach)|].
  exact (only_a_assigned_past_declarations s s' eq_refl Hreach).
Defined.

(** X9. [d] and [e] are written and never read: two states that differ
    at most in [d] and [e] take the same statements, fault alike and
    return the same value, whatever the fuel. *)
Theorem d_and_e_never_read (s t : state) (fuel : nat) :
  state_same_but_d_e s t ->
  outcome_same_but_d_e (exec fuel s) (exec fuel t) /\
  exit_status (exec fuel s) = exit_status (exec fuel t).
Proof.
  intros Hsim.
  assert (outcome_same_but_d_e (exec fuel s) (exec fuel t)) as Hout.
  { revert s t Hsim. induction fuel as [|fuel IH]; intros s t Hsim.
    - exact Hsim.
    - rewrite !exec_S. pose proof (step_same_but_d_e s t Hsim) as Hstep.
      destruct (step s) as [s1|v g|f], (step t) as [t1|w h|f'];
        try contradiction; [now apply IH | exact Hstep | exact Hstep]. }
  split; [exact Hout|].
  destruct (exec fuel s), (exec fuel t); try contradiction;
    [reflexivity | | reflexivity].
  destruct Hout as [-> _]. reflexivity.
Qed.

Lemma d_and_e_never_read_witness :
  let s := mkState L27 initial_globals (mkLocals 5 10 true 15 (-5) 5) in
  let t := mkState L27 initial_globals (mkLocals 5 10 true 15 1234 (-77)) in
  state_same_but_d_e s t /\
  outcome_same_but_d_e (exec 14 s) (exec 14 t) /\
  exit_status (exec 14 s) = exit_status (exec 14 t).
Proof.
  intros s t.
  assert (state_same_but_d_e s t) as Hsim by (repeat split).
  split; [exact Hsim|].
  exact (d_and_e_never_read s t 14 Hsim).
Defined.

(** X10. No [+] or [-] that [main] executes overflows: in every state
    reached from the entry, whatever the globals and the frame held, the
    mathematical result of the statement about to run is representable,
    so the run is the same under any treatment of signed overflow. *)
Theorem main_never_overflows (g : globals) (junk : locals) (s : state) :
  reachable (entry g junk) s -> no_overflow s.
Proof.
  intros Hreach. apply inv_no_overflow. now apply reachable_inv in Hreach.
Qed.

Lemma main_never_overflows_witness :
  let junk := mkLocals (-7) 0 false 99 3 1 in
  let s := mkState L35 initial_globals (mkLocals 14 10 true 15 (-5) 5) in
  reachable (entry initial_globals junk) s /\ Int32.InRange (14 + 2).
Proof.
  intros junk s.
  assert (reachable (entry initial_globals junk) s) as Hreach
    by (apply (exec_reachable 17); reflexivity).
  split; [exact Hreach|].
  exact (main_never_overflows initial_globals junk s Hreach).
Defined.

(** X11. The modulus statement at line 24 from any state: it faults
    with a division by zero exactly when [b] is 0 and with a quotient
    overflow exactly when [a] is [INT_MIN] and [b] is -1; otherwise it
    goes to line 27 having stored in [e] the remainder of the truncating
    division of [a] by [b], smaller than [b] in absolute value, never of
    the sign opposite to [a]'s, in range when [a] is, and it changes no
    other local. *)
Theorem modulus_statement_behaviour (s : state) :
  pc s = L24 ->
  (step s = Faulted Int32.DivideByZero <-> b (loc s) = 0) /\
  (step s = Faulted Int32.QuotientOverflow <->
   a (loc s) = Int32.INT_MIN /\ b (loc s) = -1) /\
  (forall s', step s = Next s' ->
     pc s' = L27 /\
     e (loc s') = Z.rem (a (loc s)) (b (loc s)) /\
     a (loc s) = b (loc s) * Z.quot (a (loc s)) (b (loc s)) + e (loc s') /\
     Z.abs (e (loc s')) < Z.abs (b (loc s)) /\
     0 <= e (loc s') * a (loc s) /\
     (Int32.InRange (a (loc s)) -> Int32.InRange (e (loc s'))) /\
     same_but_d_e (loc s') (loc s) /\ d (loc s') = d (loc s)).
Proof.
  intros Hpc. unfold step. rewrite Hpc.
  destruct (Int32.rem (a (loc s)) (b (loc s))) as [r|f] eqn:Hrem.
  - split.
    { split; [discriminate|]. intros Hb.
      apply (proj2 (Int32Facts.rem_div_by_zero (a (loc s)) _)) in Hb.
      congruence. }
    split.
    { split; [discriminate|]. intros [Ha Hb].
      rewrite Ha, Hb in Hrem. discriminate. }
    intros s' [= <-]. cbn [jump with_e pc loc e a b flag c d].
    pose proof (Int32Facts.rem_truncating _ _ _ Hrem) as (H1 & H2 & H3 & H4).
    split; [reflexivity|]. split; [assumption|]. split; [assumption|].
    split; [assumption|]. split; [assumption|].
    split; [|unfold same_but_d_e; auto].
    intros Hr. now apply Int32Facts.rem_in_range with (a (loc s)) (b (loc s)).
  - unfold Int32.rem in Hrem.
    destruct (Z.eqb_spec (b (loc s)) 0) as [Hb|Hb].
    + injection Hrem as <-.
      split; [tauto|]. split; [|discriminate].
      split; [discriminate|]. intros [_ Hb']. lia.
    + destruct (Z.eqb_spec (a (loc s)) Int32.INT_MIN) as [Ha|Ha];
        destruct (Z.eqb_spec (b (loc s)) (-1)) as [Hb1|Hb1];
        cbn [andb] in Hrem; try discriminate.
      injection Hrem as <-.
      split; [split; [discriminate | contradiction]|].
      split; [tauto | discriminate].
Qed.

Lemma modulus_statement_behaviour_witness :
  let s0 := mkState L24 initial_globals (mkLocals 7 0 true 15 (-5) 5) in
  let s1 := mkState L24 initial_globals (mkLocals (-7) 2 true 15 (-5) 5) in
  (pc s0 = L24 /\ step s0 = Faulted Int32.DivideByZero) /\
  (pc s1 = L24 /\
   step s1 = Next (mkState L27 initial_globals (mkLocals (-7) 2 true 15 (-5) (-1))) /\
   -7 = 2 * Z.quot (-7) 2 + -1).
Proof.
  intros s0 s1. split.
  - split; [reflexivity|].
    apply (proj1 (modulus_statement_behaviour s0 eq_refl)). reflexivity.
  - split; [reflexivity|]. split; [reflexivity|].
    destruct (modulus_statement_behaviour s1 eq_refl) as (_ & _ & Hnext).
    destruct (Hnext _ eq_refl) as (_ & _ & Hquot & _). exact Hquot.
Defined.

(** X12. No local is read before its declaration has initialised it:
    whatever two frames held on entry, once the six declarations have
    run the two runs are in the same state, and stay so. *)
Theorem no_uninitialised_read (g : globals) (junk1 junk2 : locals) (fuel : nat) :
  (6 <= fuel)%nat ->
  exec fuel (entry g junk1) = exec fuel (entry g junk2).
Proof.
  intros Hfuel. replace fuel with (6 + (fuel - 6))%nat by lia.
  now rewrite !exec_plus, !exec_to_L27.
Qed.

Lemma no_uninitialised_read_witness :
  (6 <= 9)%nat /\
  exec 9 (entry initial_globals (mkLocals (-7) 0 false 99 3 1))
  = exec 9 (entry initial_globals (mkLocals 1 2 true 3 4 5)).
Proof.
  split; [lia|].
  apply (no_uninitialised_read initial_globals
           (mkLocals (-7) 0 false 99 3 1) (mkLocals 1 2 true 3 4 5) 9). lia.
Defined.
